(** * Sentence segmentation, stop words and word-vector queries

    A shallow embedding of the code cells of the notebooks
    (sentence segmentation, stop words, semantics and word vectors) and
    the properties the specification states about them.  Code that the
    notebooks author themselves ([set_custom_boundaries],
    [split_on_newlines], the analogy loop, the stop-word updates) is
    transcribed statement by statement.  What the notebooks only call
    (the library's flag setter, its sentence iterator, its vocabulary
    lookup, scipy's cosine distance) is modelled from the specification
    or from what the notebooks record about it, or is a parameter of the
    model; each such definition says so. *)

From Stdlib Require Import QArith Ascii.
From stdpp Require Import base list strings gmap sorting.

(** * Outcomes of operations that may raise *)

(** The exceptions a modelled operation can end with.  [IndexError],
    [KeyError] and [ValueError] are Python's; [ValueError_E043] is the
    library's refusal to write a sentence-start flag of a parsed
    document (recorded in the segmentation notebook).
    [OutOfVocabulary] and [DegenerateVectorError] are error kinds named
    by the specification; no code cell raises them. *)
Inductive error : Type :=
| IndexError
| KeyError
| ValueError
| ValueError_E043
| OutOfVocabulary
| DegenerateVectorError.

Inductive result (A : Type) : Type :=
| Ok (a : A)
| Err (e : error).
Arguments Ok {A} a.
Arguments Err {A} e.

Global Instance result_ret : MRet result := λ A a, Ok a.
Global Instance result_bind : MBind result :=
  λ A B f m, match m with Ok a => f a | Err e => Err e end.

(** The specification's name for the refused write. *)
Definition FrozenStateError : error := ValueError_E043.

Module Segmenter.

(** ** Data model *)

(** A token: its text and its sentence-start flag.  The token's index
    [token.i] is its position in the document and is not stored. *)
Record Token : Type := mkToken {
  text : string;
  is_sent_start : bool
}.

(** A document: its tokens, and whether the parser has run on it. *)
Record Doc : Type := mkDoc {
  tokens : list Token;
  is_parsed : bool
}.

(** A span [doc[start:end]]: a half-open range of token indices. *)
Record Span : Type := mkSpan {
  start : nat;
  end_ : nat
}.

Global Instance Token_eq_dec : EqDecision Token.
Proof. solve_decision. Defined.
Global Instance Span_eq_dec : EqDecision Span.
Proof. solve_decision. Defined.

(** A freshly tokenised document: no flag set, not parsed. *)
Definition fresh (texts : list string) : Doc :=
  mkDoc ((λ s, mkToken s false) <$> texts) false.

Definition flag_at (ts : list Token) (k : nat) : bool :=
  match ts !! k with Some t => is_sent_start t | None => false end.

Definition text_at (ts : list Token) (k : nat) : option string :=
  text <$> ts !! k.

(** The token texts of a span, as the notebook prints them with
    [[token.text for token in sent]]. *)
Definition span_texts (doc : Doc) (s : Span) : list string :=
  text <$> take (end_ s - start s) (drop (start s) (tokens doc)).

(** [s.startswith(p)]. *)
Definition startswith (s p : string) : bool := String.prefix p s.

Definition newline : string := String "010"%char EmptyString.

(** ** The flag setter *)

(** Modelled from the spec: the setter [doc[k].is_sent_start = value] is
    the library's and is not in the notebooks.  Section 4.1 (locking)
    and the traceback recorded in the notebook give its behaviour:
    indexing past the end raises [IndexError]; writing the flag of a
    token of a parsed document raises [ValueError] E043; otherwise the
    flag is written in place. *)
Definition set_is_sent_start (doc : Doc) (k : nat) (value : bool) : result Doc :=
  match tokens doc !! k with
  | None => Err IndexError
  | Some t =>
      if is_parsed doc then Err ValueError_E043
      else Ok (mkDoc (<[k := mkToken (text t) value]> (tokens doc)) false)
  end.

(** ** The semicolon rule

    [for token in doc[:-1]: if token.text == ';':
         doc[token.i+1].is_sent_start = True].
    [words] is what is left of the slice [doc[:-1]], [i] the index of
    its first token, and [doc] the document as updated so far. *)
Fixpoint set_custom_boundaries_loop
    (words : list Token) (i : nat) (doc : Doc) : result Doc :=
  match words with
  | [] => Ok doc
  | token :: rest =>
      doc' ← (if String.eqb (text token) ";"
              then set_is_sent_start doc (i + 1) true
              else Ok doc);
      set_custom_boundaries_loop rest (S i) doc'
  end.

Definition set_custom_boundaries (doc : Doc) : result Doc :=
  set_custom_boundaries_loop (removelast (tokens doc)) 0 doc.

(** ** The sentence iterator *)

(** Modelled from the spec: [doc.sents] is the library's and is not in
    the notebooks.  Section 4.1: a new span begins at index 0 and at
    every later index whose token is flagged; a span ends where the next
    one starts, the last one at the end of the document; an empty
    document has no span.  [flags] are the flags of the tokens from
    index [i] on, [start] the index at which the span being read began,
    [n] the length of the document. *)
Fixpoint sents_loop (flags : list bool) (i start n : nat) : list Span :=
  match flags with
  | [] => [mkSpan start n]
  | f :: rest =>
      if f then mkSpan start i :: sents_loop rest (S i) i n
      else sents_loop rest (S i) start n
  end.

(** Modelled from the spec: [doc.sents], the walk over the flags of
    the tokens after the first. *)
Definition sents (doc : Doc) : list Span :=
  match tokens doc with
  | [] => []
  | _ :: rest => sents_loop (is_sent_start <$> rest) 1 0 (length (tokens doc))
  end.

(** ** Newline segmentation

    The generator [split_on_newlines] of the notebook; the spans it
    yields are collected in order.  [words] is what is left of the
    document, [i] the index [word.i] of its first token, [n] is
    [len(doc)], so that the final [doc[start:]] is the span
    [start .. n]. *)
Fixpoint split_on_newlines_loop
    (words : list Token) (i start : nat) (seen_newline : bool) (n : nat)
    : list Span :=
  match words with
  | [] => [mkSpan start n]
  | word :: rest =>
      if seen_newline then
        mkSpan start i :: split_on_newlines_loop rest (S i) i false n
      else if startswith (text word) newline then
        split_on_newlines_loop rest (S i) start true n
      else
        split_on_newlines_loop rest (S i) start false n
  end.

Definition split_on_newlines (doc : Doc) : list Span :=
  split_on_newlines_loop (tokens doc) 0 0 false (length (tokens doc)).

(** ** What it means for spans to tile a document *)

(** The token indices a span holds. *)
Definition span_indices (s : Span) : list nat :=
  seq (start s) (end_ s - start s).

(** [chained a b ss]: the spans [ss] are non-empty, the first starts at
    [a], each next one starts where the previous one ended, and the last
    ends at [b]. *)
Fixpoint chained (a b : nat) (ss : list Span) : Prop :=
  match ss with
  | [] => a = b
  | s :: rest => start s = a ∧ a < end_ s ∧ chained (end_ s) b rest
  end.

(** ** Reading the newline loop

    [pending words seen_newline j] is the value of [seen_newline] when
    the loop of [split_on_newlines], entered with [seen_newline] on
    [words], reaches the word at offset [j]. *)
Fixpoint pending (words : list Token) (seen_newline : bool) (j : nat)
    {struct j} : bool :=
  match j, words with
  | 0, _ => seen_newline
  | S j', word :: rest =>
      pending rest
        (if seen_newline then false else startswith (text word) newline) j'
  | S _, [] => false
  end.

(** The token at index [k] exists and its text begins with a newline. *)
Definition is_trigger (ts : list Token) (k : nat) : bool :=
  match ts !! k with
  | Some t => startswith (text t) newline
  | None => false
  end.

(** The tokens at indices [i .. j-1] are all newline tokens. *)
Definition trigger_run (doc : Doc) (i j : nat) : Prop :=
  i < j ∧ ∀ k, i ≤ k < j → is_trigger (tokens doc) k = true.

(** How many of the spans [ss] begin at an index in [i+1 .. j]. *)
Definition boundaries_within (ss : list Span) (i j : nat) : nat :=
  length (filter (λ s, i < start s ≤ j) ss).

(** Repeated newline tokens collapse into one boundary: a run of them
    makes at most one span begin inside it or right after it. *)
Definition run_collapses (doc : Doc) : Prop :=
  ∀ i j, trigger_run doc i j →
         boundaries_within (split_on_newlines doc) i j ≤ 1.

(** The spans [ss] tile the document: there is at least one, they are
    chained from index 0 to the length of the document, and their
    indices read in order are exactly the indices of the document. *)
Definition tiles (doc : Doc) (ss : list Span) : Prop :=
  ss ≠ [] ∧
  chained 0 (length (tokens doc)) ss ∧
  concat (span_indices <$> ss) = seq 0 (length (tokens doc)).

(** A span begins at index 0 and at every flagged token, nowhere else. *)
Definition starts_at_flags (doc : Doc) (ss : list Span) : Prop :=
  ∀ k, k ∈ start <$> ss ↔
       k = 0 ∨ (k < length (tokens doc) ∧ flag_at (tokens doc) k = true).

(** The newline generator sets no flag; what marks a token as the start
    of a span is [seen_newline] being set when the loop reaches it. *)
Definition starts_at_pending (doc : Doc) (ss : list Span) : Prop :=
  ∀ k, k ∈ start <$> ss ↔
       k = 0 ∨ (k < length (tokens doc) ∧ pending (tokens doc) false k = true).

(** ** Documents of the notebook and of the specification *)

(** The tokens of [mystring] in the notebook. *)
Definition mystring_doc : Doc :=
  fresh ["This"; "is"; "a"; "sentence"; "."; "This"; "is"; "another"; ".";
         String.append newline newline;
         "This"; "is"; "a"; newline; "third"; "sentence"; "."].

Definition semicolon_doc : Doc := fresh ["A"; ";"; "B"; "."].

Definition newline_doc : Doc :=
  fresh ["This"; "is"; "a"; newline; "third"; "sentence"; "."].

Definition three_newlines_doc : Doc :=
  fresh ["a"; newline; newline; newline; "b"].

Definition trailing_semicolon_doc : Doc := fresh ["A"; ";"].

Definition empty_doc : Doc := fresh [].

(** The tokens A ; B . of a document that has been parsed. *)
Definition parsed_semicolon_doc : Doc := mkDoc (tokens semicolon_doc) true.

(** Another document with a newline token at the place where
    [newline_doc] has one. *)
Definition tweet_doc : Doc :=
  fresh ["Some"; "other"; "words"; String.append newline "..";
         "and"; "more"; "!"].

(** The text of the token begins with a newline. *)
Definition is_newline_token (t : Token) : bool := startswith (text t) newline.

(** ** The pipeline *)

Section Pipeline.

(** What the library's parser does to the tokens of a document. *)
Variable parse : list Token → list Token.

(** Modelled from the spec: the parser is the library's and is not in
    the notebooks.  Section 4.1
    (locking) and the notebook's traceback say that a document is locked
    once it is parsed; what the parse does to the tokens is left open. *)
Definition parser (doc : Doc) : Doc := mkDoc (parse (tokens doc)) true.

(** [nlp(text)] with the component added [before='parser']: the rule
    runs on the fresh tokens, then the parser. *)
Definition nlp (texts : list string) : result Doc :=
  doc ← set_custom_boundaries (fresh texts);
  Ok (parser doc).

End Pipeline.

End Segmenter.

Module StopWords.

(** ** The stop-word state

    The stop-word notebook works on two things: the set
    [nlp.Defaults.stop_words], and the [is_stop] tag of the lexemes held
    by [nlp.vocab] (the only lexeme attribute it reads or writes). *)
Record State : Type := mkState {
  stop_words : gset string;
  vocab : gmap string bool
}.

Section Lexemes.

(** The tag the library gives a lexeme when it creates it, computed from
    the stop-word set of the language defaults. *)
Variable lex_is_stop : gset string → string → bool.

(** [nlp.vocab[word]]: the lexeme is added if necessary; its tag is
    returned together with the vocabulary. *)
Definition vocab_getitem (st : State) (word : string) : bool * State :=
  match vocab st !! word with
  | Some tag => (tag, st)
  | None =>
      let tag := lex_is_stop (stop_words st) word in
      (tag, mkState (stop_words st) (<[word := tag]> (vocab st)))
  end.

(** [nlp.Defaults.stop_words.add(word)]. *)
Definition stop_words_add (st : State) (word : string) : State :=
  mkState ({[word]} ∪ stop_words st) (vocab st).

(** [nlp.Defaults.stop_words.remove(word)]; Python's [set.remove]
    raises [KeyError] when the element is missing. *)
Definition stop_words_remove (st : State) (word : string) : result State :=
  if decide (word ∈ stop_words st)
  then Ok (mkState (stop_words st ∖ {[word]}) (vocab st))
  else Err KeyError.

(** [nlp.vocab[word].is_stop = value]. *)
Definition set_is_stop (st : State) (word : string) (value : bool) : State :=
  let st' := (vocab_getitem st word).2 in
  mkState (stop_words st') (<[word := value]> (vocab st')).

(** [nlp.vocab[word].is_stop]. *)
Definition is_stop (st : State) (word : string) : bool :=
  (vocab_getitem st word).1.

(** [len(nlp.Defaults.stop_words)]. *)
Definition len_stop_words (st : State) : nat := size (stop_words st).

(** The cell that adds a stop word: add it to the set, then set the tag
    of its lexeme. *)
Definition add_stop_word (st : State) (word : string) : State :=
  set_is_stop (stop_words_add st word) word true.

(** The cell that removes a stop word: remove it from the set, then
    clear the tag of its lexeme. *)
Definition remove_stop_word (st : State) (word : string) : result State :=
  st' ← stop_words_remove st word;
  Ok (set_is_stop st' word false).

End Lexemes.

(** The notebook's example, on a two-word stop list. *)
Definition small_state : State := mkState {["a"; "the"]} ∅.

(** A state in which the lexeme of [The] is tagged as a stop word
    although the set does not hold that text: the tag and the set are
    two things, written one by one. *)
Definition tagged_state : State := mkState {["a"; "the"]} {["The" := true]}.

End StopWords.

Module VectorSpace.

(** ** Numbers and vectors *)

(** The components of a vector are exact rationals: the rounding of
    float arithmetic is not modelled, and every score whose value
    depends on it is left to the library's distance below. *)
Definition Vec : Type := list Q.

(** A computed score is a number or the float NaN. *)
Inductive fnum : Type :=
| Num (q : Q)
| NaN.

(** [1 - d] and [- s] on floats: NaN stays NaN. *)
Definition fsub1 (d : fnum) : fnum :=
  match d with Num q => Num (1 - q) | NaN => NaN end.

Definition fneg (s : fnum) : fnum :=
  match s with Num q => Num (- q) | NaN => NaN end.

(** [a < b] on floats: false as soon as one side is NaN. *)
Definition flt (a b : fnum) : bool :=
  match a, b with
  | Num x, Num y => negb (Qle_bool y x)
  | _, _ => false
  end.

(** [a] and [b] are numbers and [a <= b]. *)
Definition fle (a b : fnum) : Prop :=
  match a, b with
  | Num x, Num y => (x <= y)%Q
  | _, _ => False
  end.

(** [a] and [b] are numbers and equal. *)
Definition feq (a b : fnum) : Prop :=
  match a, b with
  | Num x, Num y => x == y
  | _, _ => False
  end.

(** [s] is a number, not NaN. *)
Definition is_number (s : fnum) : Prop := ∃ q, s = Num q.

(** [s] is the number [q]. *)
Definition feqb (s : fnum) (q : Q) : bool :=
  match s with Num x => Qeq_bool x q | NaN => false end.

Definition dot (a b : Vec) : Q := foldr Qplus 0%Q (zip_with Qmult a b).

(** The square of the Euclidean norm; the norm is 0 exactly when its
    square is. *)
Definition norm_sq (a : Vec) : Q := dot a a.

(** numpy's [a - b] and [a + b] on one-dimensional arrays: elementwise
    on arrays of one length, an array of length one is stretched to the
    other, and other lengths raise [ValueError]. *)
Definition elementwise (f : Q → Q → Q) (a b : Vec) : result Vec :=
  if bool_decide (length a = length b) then Ok (zip_with f a b)
  else match a, b with
       | [x], _ => Ok (f x <$> b)
       | _, [y] => Ok ((λ x, f x y) <$> a)
       | _, _ => Err ValueError
       end.

Definition vsub : Vec → Vec → result Vec := elementwise Qminus.
Definition vadd : Vec → Vec → result Vec := elementwise Qplus.

(** ** The store of vectors of the specification *)

(** Modelled from the spec: the vector space of section 4.2, a mapping
    from words to vectors that share one dimension (section 3).  The
    operations [get], [has_vector] and [vector_norm] on it are not code
    of the notebooks. *)
Record Space : Type := mkSpace {
  dimension : nat;
  mapping : gmap string Vec
}.

(** Modelled from the spec: [get(word)] of section 4.2, a case-sensitive
    lookup of the key that fails with [OutOfVocabulary] when the word is
    unseen. *)
Definition get (space : Space) (word : string) : result Vec :=
  match mapping space !! word with
  | Some v => Ok v
  | None => Err OutOfVocabulary
  end.

(** Modelled from the spec: [has_vector] of the entry of a word, true
    when the mapping holds a vector for it. *)
Definition has_vector_of (space : Space) (word : string) : bool :=
  bool_decide (is_Some (mapping space !! word)).

(** Modelled from the spec: the vector of the entry of a word; for an
    unseen word the all-zero vector of section 7. *)
Definition vector_of (space : Space) (word : string) : Vec :=
  default (replicate (dimension space) 0%Q) (mapping space !! word).

(** Modelled from the spec: the square of [vector_norm] of the entry of
    a word. *)
Definition vector_norm_sq (space : Space) (word : string) : Q :=
  norm_sq (vector_of space word).

(** ** Lexemes *)

(** A lexeme as the analogy loop reads it. *)
Record Lexeme : Type := mkLexeme {
  text : string;
  has_vector : bool;
  vector : Vec;
  is_lower : bool;
  is_alpha : bool
}.

Section Library.

(** What [scipy.spatial.distance.cosine] does off the one case that
    [distance_cosine] settles: the float it returns, or [None] when it
    raises (numpy refuses shapes it cannot combine with a
    [ValueError]). *)
Variable scipy_cosine : Vec → Vec → option fnum.

(** [spatial.distance.cosine(u, v)], that is
    [1 - u.v / sqrt(u.u * v.v)]: for two vectors of one length of which
    one has norm 0 the quotient is 0/0, the float NaN, and nothing is
    raised; every other outcome is the library's. *)
Definition distance_cosine (u v : Vec) : result fnum :=
  if bool_decide (length u = length v)
     && Qeq_bool (norm_sq u * norm_sq v) 0
  then Ok NaN
  else match scipy_cosine u v with
       | Some d => Ok d
       | None => Err ValueError
       end.

(** [cosine_similarity = lambda x, y: 1 - spatial.distance.cosine(x, y)]. *)
Definition cosine_similarity (x y : Vec) : result fnum :=
  d ← distance_cosine x y;
  Ok (fsub1 d).

(** ** The analogy query *)

(** The loop over the vocabulary: each lexeme that has a vector, is
    lowercase and is alphabetic is appended with its similarity to
    [new_vector]; an exception of the similarity ends the loop.
    [vocab] is the sequence of lexemes that [for word in nlp.vocab]
    yields, in the library's order.  (The cell also prints a line for
    one word; that leaves the list as it is.) *)
Definition computed_similarities
    (vocab : list Lexeme) (new_vector : Vec) : result (list (Lexeme * fnum)) :=
  foldl (λ acc word,
           computed ← acc;
           if has_vector word then
             if is_lower word then
               if is_alpha word then
                 similarity ← cosine_similarity new_vector (vector word);
                 Ok (computed ++ [(word, similarity)])
               else Ok computed
             else Ok computed
           else Ok computed)
        (Ok []) vocab.

(** Python's [sorted(l, key=key)].  It is stable, and when the keys are
    totally ordered, that is when none is NaN, its result is the one
    stable ascending arrangement, which this insertion sort computes
    with the comparison [<] alone.  With a NaN key Python's result
    depends on the order of its merges; nothing is proved of [sorted]
    then. *)
Fixpoint insert_by {A : Type} (key : A → fnum) (x : A) (l : list A) : list A :=
  match l with
  | [] => [x]
  | y :: l' =>
      if flt (key y) (key x) then y :: insert_by key x l'
      else x :: y :: l'
  end.

Definition sorted {A : Type} (key : A → fnum) (l : list A) : list A :=
  foldr (insert_by key) [] l.

(** [sorted(computed_similarities, key=lambda item: -item[1])]. *)
Definition computed_similarities1
    (vocab : list Lexeme) (new_vector : Vec) : result (list (Lexeme * fnum)) :=
  computed ← computed_similarities vocab new_vector;
  Ok (sorted (λ item, fneg item.2) computed).

(** The cell as a whole: [new_vector = king - man + woman], then the
    loop and the sort.  The three vectors are what the library returns
    for [nlp.vocab['king'].vector] and the two others. *)
Definition analogy (vocab : list Lexeme) (king man woman : Vec)
    : result (list (Lexeme * fnum)) :=
  difference ← vsub king man;
  new_vector ← vadd difference woman;
  computed_similarities1 vocab new_vector.

End Library.

(** The three tests of the loop, as one filter. *)
Definition passes (word : Lexeme) : bool :=
  has_vector word && is_lower word && is_alpha word.

(** The entries as the specification describes them: the vocabulary
    filtered by the three tests, each entry with its score;
    [score word] is the number the similarity returns for the word. *)
Definition scored (score : Lexeme → Q) (vocab : list Lexeme)
    : list (Lexeme * fnum) :=
  (λ word, (word, Num (score word))) <$> List.filter passes vocab.

(** Entries with the same score are in ascending lexical order of
    their words. *)
Definition ties_lexical (ranked : list (Lexeme * fnum)) : Prop :=
  ∀ i j a b, i < j → ranked !! i = Some a → ranked !! j = Some b →
             feq a.2 b.2 → String.leb (text a.1) (text b.1) = true.

(** [[w[0].text for w in computed_similarities1[:k]]]: the words of the
    first [k] entries of a ranking. *)
Definition top_words (k : nat) (ranked : list (Lexeme * fnum)) : list string :=
  (λ w, text w.1) <$> take k ranked.

(** Two lexemes with one vector, named after the first two words of
    the notebook's ranking. *)
Definition lex_overlord : Lexeme :=
  mkLexeme "overlord" true [1; 0]%Q true true.
Definition lex_king : Lexeme :=
  mkLexeme "king" true [1; 0]%Q true true.

(** A distance for the examples: 0 between the vectors they use. *)
Definition zero_distance : Vec → Vec → option fnum := λ _ _, Some (Num 0).

(** A space with one word. *)
Definition small_space : Space :=
  mkSpace 2 {["king" := [1; 0]%Q]}.

End VectorSpace.

Module SegmenterProps.
Import Segmenter.

(** ** Spans that are chained tile the range they span *)

Lemma chained_le (a b : nat) (ss : list Span) : chained a b ss → a ≤ b.
Proof.
  revert a; induction ss as [|s ss IH]; intros a; simpl.
  - lia.
  - intros (_ & Hlt & Hrest). apply IH in Hrest. lia.
Qed.

Lemma chained_indices (a b : nat) (ss : list Span) :
  chained a b ss → concat (span_indices <$> ss) = seq a (b - a).
Proof.
  revert a; induction ss as [|s ss IH]; intros a; cbn [chained].
  - intros ->. by rewrite Nat.sub_diag.
  - intros (Hs & Hlt & Hrest).
    pose proof (chained_le _ _ _ Hrest) as Hle.
    rewrite fmap_cons. cbn [concat].
    rewrite (IH _ Hrest). unfold span_indices. rewrite Hs.
    replace (b - a) with ((end_ s - a) + (b - end_ s)) by lia.
    rewrite seq_app. do 2 f_equal. lia.
Qed.

Lemma chained_nonempty_spans (a b : nat) (ss : list Span) :
  chained a b ss → Forall (λ s, start s < end_ s) ss.
Proof.
  revert a; induction ss as [|s ss IH]; intros a; simpl.
  - constructor.
  - intros (Hs & Hlt & Hrest). constructor; [lia | eauto].
Qed.

(** ** The flag walk *)

Lemma sents_loop_chained (flags : list bool) (i st n : nat) :
  st < i → i + length flags = n → chained st n (sents_loop flags i st n).
Proof.
  revert i st; induction flags as [|f flags IH]; intros i st Hlt Hn; simpl in *.
  - repeat split; lia.
  - destruct f; simpl.
    + repeat split; [lia|]. apply IH; lia.
    + apply IH; lia.
Qed.

Lemma sents_loop_starts (flags : list bool) (i st n k : nat) :
  k ∈ start <$> sents_loop flags i st n ↔
  k = st ∨ ∃ j, flags !! j = Some true ∧ k = i + j.
Proof.
  revert i st; induction flags as [|f flags IH]; intros i st; simpl.
  - rewrite list_elem_of_singleton. split; [auto|].
    intros [?|(j & Hj & _)]; [done|]. by rewrite lookup_nil in Hj.
  - destruct f; simpl.
    + rewrite elem_of_cons, IH. split.
      * intros [?|[->|(j & Hj & ->)]]; [by left | |].
        -- right. exists 0. split; [done | lia].
        -- right. exists (S j). split; [done | lia].
      * intros [?|(j & Hj & ->)]; [by left|]. right.
        destruct j as [|j]; [left; lia|].
        right. exists j. split; [done | lia].
    + rewrite IH. split.
      * intros [?|(j & Hj & ->)]; [by left|].
        right. exists (S j). split; [done | lia].
      * intros [?|(j & Hj & ->)]; [by left|].
        destruct j as [|j]; [done|].
        right. exists j. split; [done | lia].
Qed.

Lemma sents_chained (doc : Doc) :
  tokens doc ≠ [] → chained 0 (length (tokens doc)) (sents doc).
Proof.
  unfold sents. destruct (tokens doc) as [|t rest]; [done|]. intros _.
  apply sents_loop_chained; [lia|]. rewrite length_fmap. simpl. lia.
Qed.

Lemma sents_starts (doc : Doc) (k : nat) :
  tokens doc ≠ [] →
  k ∈ start <$> sents doc ↔
  k = 0 ∨ (k < length (tokens doc) ∧ flag_at (tokens doc) k = true).
Proof.
  unfold sents, flag_at. destruct (tokens doc) as [|t rest]; [done|]. intros _.
  rewrite sents_loop_starts. split.
  - intros [?|(j & Hj & ->)]; [by left|]. right.
    rewrite list_lookup_fmap in Hj.
    destruct (rest !! j) as [t'|] eqn:Hr; simplify_eq/=.
    apply lookup_lt_Some in Hr as Hlen. split; [lia|].
    by rewrite Hr.
  - intros [?|[Hlt Hf]]; [by left|].
    destruct k as [|j]; [by left|]. right. exists j. simpl in Hf.
    split; [|lia]. rewrite list_lookup_fmap.
    destruct (rest !! j) as [t'|]; simplify_eq/=; by f_equal.
Qed.

(** ** The newline generator *)

Lemma split_on_newlines_loop_chained
    (words : list Token) (i st : nat) (seen : bool) (n : nat) :
  st ≤ i → (st = i → seen = false ∧ words ≠ []) → i + length words = n →
  chained st n (split_on_newlines_loop words i st seen n).
Proof.
  revert i st seen; induction words as [|w words IH];
    intros i st seen Hle Heq Hn; simpl in *.
  - assert (st ≠ i) by (intros E; destruct (Heq E); done).
    repeat split; lia.
  - destruct seen; simpl.
    + assert (st ≠ i) by (intros E; destruct (Heq E); done).
      repeat split; [lia|]. apply IH; lia.
    + destruct (startswith (text w) newline); apply IH; lia.
Qed.

Lemma split_on_newlines_chained (doc : Doc) :
  tokens doc ≠ [] → chained 0 (length (tokens doc)) (split_on_newlines doc).
Proof.
  intros Hne. apply split_on_newlines_loop_chained; [lia|done|lia].
Qed.

(** Where the spans of the newline loop begin: at [st], and at every
    word the loop reaches with a newline pending. *)
Lemma split_on_newlines_loop_starts
    (words : list Token) (i st : nat) (seen : bool) (n k : nat) :
  k ∈ start <$> split_on_newlines_loop words i st seen n ↔
  k = st ∨ ∃ j, j < length words ∧ pending words seen j = true ∧ k = i + j.
Proof.
  revert i st seen; induction words as [|w words IH]; intros i st seen; simpl.
  - rewrite list_elem_of_singleton. split; [auto|].
    intros [?|(j & Hj & _)]; [done | lia].
  - destruct seen; simpl.
    + rewrite elem_of_cons, IH. split.
      * intros [?|[->|(j & Hj & Hp & ->)]]; [by left | |].
        -- right. exists 0. repeat split; lia.
        -- right. exists (S j). repeat split; [lia | done | lia].
      * intros [?|(j & Hj & Hp & ->)]; [by left|]. right.
        destruct j as [|j]; [left; lia|].
        right. exists j. repeat split; [lia | done | lia].
    + destruct (startswith (text w) newline) eqn:Hw; rewrite IH; split.
      all: intros [?|(j & Hj & Hp & ->)]; [by left|]; right.
      all: try (exists (S j); simpl; rewrite ?Hw;
                repeat split; [lia | done | lia]).
      all: destruct j as [|j]; simpl in Hp; rewrite ?Hw in Hp; [done|].
      all: exists j; repeat split; [lia | done | lia].
Qed.

Lemma pending_S (words : list Token) (seen : bool) (k : nat) (w : Token) :
  words !! k = Some w →
  pending words seen (S k) =
  negb (pending words seen k) && startswith (text w) newline.
Proof.
  revert words seen; induction k as [|k IH]; intros [|w' words] seen Hw;
    simplify_eq/=.
  - by destruct seen.
  - by apply IH.
Qed.

Lemma split_on_newlines_starts_at_pending (doc : Doc) :
  starts_at_pending doc (split_on_newlines doc).
Proof.
  intros k. unfold split_on_newlines. rewrite split_on_newlines_loop_starts.
  split.
  - intros [?|(j & Hj & Hp & ->)]; [by left | by right].
  - intros [?|[Hlt Hp]]; [by left|]. right. by exists k.
Qed.

Lemma split_on_newlines_starts (doc : Doc) (k : nat) :
  0 < k →
  k ∈ start <$> split_on_newlines doc ↔
  k < length (tokens doc) ∧ pending (tokens doc) false k = true.
Proof.
  intros Hk. rewrite (split_on_newlines_starts_at_pending doc k).
  split; [intros [?|?]; [lia | done] | by right].
Qed.

(** The notebook's printed sentences of [mystring] under the newline
    generator. *)
Example split_on_newlines_mystring :
  span_texts mystring_doc <$> split_on_newlines mystring_doc =
  [ ["This"; "is"; "a"; "sentence"; "."; "This"; "is"; "another"; ".";
     String.append newline newline];
    ["This"; "is"; "a"; newline];
    ["third"; "sentence"; "."] ].
Proof. reflexivity. Qed.

(** ** The semicolon rule *)

Lemma removelast_lookup {A : Type} (l : list A) (j : nat) (x : A) :
  removelast l !! j = Some x ↔ l !! j = Some x ∧ S j < length l.
Proof.
  revert j; induction l as [|a l IH]; intros j.
  - simpl. rewrite lookup_nil. split; [done | by intros [? _]].
  - destruct l as [|b l].
    + simpl. rewrite lookup_nil. split; [done|]. intros [_ ?]; lia.
    + change (removelast (a :: b :: l)) with (a :: removelast (b :: l)).
      destruct j as [|j]; simpl.
      * split; [intros; split; [done | lia] | by intros []].
      * rewrite (IH j). simpl. split; intros [? ?]; split; [done|lia|done|lia].
Qed.

Lemma removelast_bound {A : Type} (l : list A) :
  removelast l = [] ∨ 0 + length (removelast l) < length l.
Proof.
  destruct l as [|a l]; [by left|]. right.
  rewrite removelast_firstn_len, length_take. simpl. lia.
Qed.

Lemma flag_at_insert (ts : list Token) (k0 k : nat) (t : Token) :
  k0 < length ts →
  flag_at (<[k0 := t]> ts) k =
  if decide (k = k0) then is_sent_start t else flag_at ts k.
Proof.
  intros Hlt. unfold flag_at. case_decide as Hk.
  - subst. by rewrite list_lookup_insert_eq.
  - by rewrite list_lookup_insert_ne.
Qed.

Lemma text_insert (ts : list Token) (k : nat) (t : Token) (v : bool) :
  ts !! k = Some t →
  text <$> <[k := mkToken (text t) v]> ts = text <$> ts.
Proof.
  intros Ht. rewrite list_fmap_insert. simpl.
  apply list_insert_id. by rewrite list_lookup_fmap, Ht.
Qed.

(** On a document that is not parsed the loop runs to its end; it keeps
    the texts and sets exactly the flags of the tokens that follow a
    semicolon of [words]. *)
Lemma set_custom_boundaries_loop_spec (words : list Token) (i : nat) (doc : Doc) :
  is_parsed doc = false →
  (words = [] ∨ i + length words < length (tokens doc)) →
  ∃ doc', set_custom_boundaries_loop words i doc = Ok doc' ∧
    is_parsed doc' = false ∧
    text <$> tokens doc' = text <$> tokens doc ∧
    ∀ k, flag_at (tokens doc') k = true ↔
         flag_at (tokens doc) k = true ∨
         ∃ j w, words !! j = Some w ∧ text w = ";" ∧ k = i + j + 1.
Proof.
  revert i doc; induction words as [|w words IH]; intros i doc Hp Hlen.
  - exists doc. split_and!; [done..|]. intros k. split.
    + by left.
    + intros [?|(j & w & Hw & _)]; [done|]. by rewrite lookup_nil in Hw.
  - destruct Hlen as [?|Hlen]; [done|]. simpl in Hlen.
    cbn [set_custom_boundaries_loop].
    destruct (String.eqb (text w) ";") eqn:E.
    + apply String.eqb_eq in E.
      destruct (lookup_lt_is_Some_2 (tokens doc) (i + 1)) as [t Ht]; [lia|].
      unfold set_is_sent_start. rewrite Ht, Hp. cbn [mbind result_bind].
      set (doc1 := mkDoc _ false).
      destruct (IH (S i) doc1) as (doc' & Hrun & Hp' & Htxt & Hfl).
      { done. }
      { right. unfold doc1. simpl. rewrite length_insert. lia. }
      exists doc'. split_and!; [done..| |].
      * rewrite Htxt. unfold doc1. simpl. by apply text_insert.
      * intros k. rewrite Hfl. unfold doc1; simpl.
        rewrite flag_at_insert by lia. case_decide as Hk; simpl.
        -- split; [|by left]. intros _. right. exists 0, w. split; [done|].
           split; [done | lia].
        -- split.
           ++ intros [?|(j & w' & Hw' & Hs & ->)]; [by left|].
              right. exists (S j), w'. repeat split; [done..|lia].
           ++ intros [?|(j & w' & Hw' & Hs & ->)]; [by left|].
              destruct j as [|j]; [lia|].
              right. exists j, w'. repeat split; [done..|lia].
    + apply String.eqb_neq in E. cbn [mbind result_bind].
      destruct (IH (S i) doc) as (doc' & Hrun & Hp' & Htxt & Hfl).
      { done. }
      { right. lia. }
      exists doc'. split_and!; [done..|]. intros k. rewrite Hfl. split.
      * intros [?|(j & w' & Hw' & Hs & ->)]; [by left|].
        right. exists (S j), w'. repeat split; [done..|lia].
      * intros [?|(j & w' & Hw' & Hs & ->)]; [by left|].
        destruct j as [|j]; [by simplify_eq/=|].
        right. exists j, w'. repeat split; [done..|lia].
Qed.

(** The index read by the loop is always that of a token of the
    document, whatever the document. *)
Lemma set_custom_boundaries_loop_no_IndexError
    (words : list Token) (i : nat) (doc : Doc) :
  (words = [] ∨ i + length words < length (tokens doc)) →
  set_custom_boundaries_loop words i doc ≠ Err IndexError.
Proof.
  revert i doc; induction words as [|w words IH]; intros i doc Hlen.
  - done.
  - destruct Hlen as [?|Hlen]; [done|]. simpl in Hlen.
    cbn [set_custom_boundaries_loop].
    destruct (String.eqb (text w) ";").
    + destruct (lookup_lt_is_Some_2 (tokens doc) (i + 1)) as [t Ht]; [lia|].
      unfold set_is_sent_start. rewrite Ht.
      destruct (is_parsed doc); cbn [mbind result_bind]; [done|].
      apply IH. right. simpl. rewrite length_insert. lia.
    + cbn [mbind result_bind]. apply IH. right. lia.
Qed.

(** Without a semicolon among [words] nothing is written. *)
Lemma set_custom_boundaries_loop_no_semicolon
    (words : list Token) (i : nat) (doc : Doc) :
  (∀ w, w ∈ words → text w ≠ ";") →
  set_custom_boundaries_loop words i doc = Ok doc.
Proof.
  revert i; induction words as [|w words IH]; intros i Hw; [done|].
  cbn [set_custom_boundaries_loop].
  destruct (String.eqb (text w) ";") eqn:E.
  - apply String.eqb_eq in E. destruct (Hw w); [left | done].
  - cbn [mbind result_bind]. apply IH. intros w' ?. apply Hw. by right.
Qed.

(** On a parsed document the loop stops at its first write. *)
Lemma set_custom_boundaries_loop_parsed
    (words : list Token) (i : nat) (doc : Doc) :
  is_parsed doc = true →
  (words = [] ∨ i + length words < length (tokens doc)) →
  set_custom_boundaries_loop words i doc = Ok doc ∨
  set_custom_boundaries_loop words i doc = Err FrozenStateError.
Proof.
  revert i; induction words as [|w words IH]; intros i Hp Hlen; [by left|].
  destruct Hlen as [?|Hlen]; [done|]. simpl in Hlen.
  cbn [set_custom_boundaries_loop].
  destruct (String.eqb (text w) ";").
  - destruct (lookup_lt_is_Some_2 (tokens doc) (i + 1)) as [t Ht]; [lia|].
    unfold set_is_sent_start. rewrite Ht, Hp. by right.
  - cbn [mbind result_bind]. apply IH; [done|]. right. lia.
Qed.

Lemma set_is_sent_start_parsed (doc : Doc) (k : nat) (value : bool) :
  is_parsed doc = true → k < length (tokens doc) →
  set_is_sent_start doc k value = Err FrozenStateError.
Proof.
  intros Hp Hk. unfold set_is_sent_start.
  destruct (lookup_lt_is_Some_2 (tokens doc) k) as [t ->]; [done|].
  by rewrite Hp.
Qed.

Lemma set_custom_boundaries_spec (doc : Doc) :
  is_parsed doc = false →
  ∃ doc', set_custom_boundaries doc = Ok doc' ∧
    is_parsed doc' = false ∧
    text <$> tokens doc' = text <$> tokens doc ∧
    ∀ k, flag_at (tokens doc') k = true ↔
         flag_at (tokens doc) k = true ∨
         ∃ j, k = S j ∧ k < length (tokens doc) ∧
              text_at (tokens doc) j = Some ";".
Proof.
  intros Hp. unfold set_custom_boundaries.
  destruct (set_custom_boundaries_loop_spec
              (removelast (tokens doc)) 0 doc Hp (removelast_bound _))
    as (doc' & Hrun & Hp' & Htxt & Hfl).
  exists doc'. split_and!; [done..|]. intros k. rewrite Hfl.
  unfold text_at. split.
  - intros [?|(j & w & Hw & Hs & ->)]; [by left|]. right.
    apply removelast_lookup in Hw as [Hw Hlt].
    exists j. split_and!; [lia | lia |]. by rewrite Hw, <- Hs.
  - intros [?|(j & -> & Hlt & Hs)]; [by left|]. right.
    destruct (tokens doc !! j) as [w|] eqn:Hw; simplify_eq/=.
    exists j, w. split_and!; [|done|lia].
    apply removelast_lookup. done.
Qed.

(** ** Theorems of the segmenter *)

(** C1. For every non-empty token sequence the sentence iterator returns
    at least one span; its spans are non-empty half-open ranges, each
    beginning where the previous one ended, from index 0 to the end of
    the document, so that they cover every token exactly once; and a
    span begins at index 0 and at every flagged token, nowhere else.
    The spans yielded by the newline generator tile the document in the
    same way; they begin at index 0 and at every token that the loop
    reaches with a newline pending, nowhere else. *)
Theorem sentences_cover_document (doc : Doc) :
  tokens doc ≠ [] →
  tiles doc (sents doc) ∧
  starts_at_flags doc (sents doc) ∧
  tiles doc (split_on_newlines doc) ∧
  starts_at_pending doc (split_on_newlines doc).
Proof.
  intros Hne.
  assert (Hpos : 0 < length (tokens doc))
    by (destruct (tokens doc); [done | simpl; lia]).
  assert (Htiles : ∀ ss, chained 0 (length (tokens doc)) ss → tiles doc ss).
  { intros ss Hch. split_and!; [|done|].
    - intros ->. simpl in Hch. lia.
    - rewrite (chained_indices _ _ _ Hch). f_equal. lia. }
  split_and!.
  - by apply Htiles, sents_chained.
  - intros k. by apply sents_starts.
  - by apply Htiles, split_on_newlines_chained.
  - apply split_on_newlines_starts_at_pending.
Qed.

Lemma sentences_cover_document_witness :
  tokens newline_doc ≠ [] ∧
  tiles newline_doc (sents newline_doc) ∧
  starts_at_flags newline_doc (sents newline_doc) ∧
  tiles newline_doc (split_on_newlines newline_doc) ∧
  starts_at_pending newline_doc (split_on_newlines newline_doc).
Proof.
  split; [discriminate | apply (sentences_cover_document newline_doc)].
  discriminate.
Defined.

(** C2. Once the pipeline (boundary rule, then parse) has run on a token
    sequence, the document is parsed and every write of a token's
    sentence-start flag fails with the frozen-state error; the boundary
    rule re-run on that document either has nothing to write or fails
    with the same error.  The failure is a result of the operation: the
    pipeline itself, run on the fresh token sequence, succeeded. *)
Theorem sent_start_frozen_after_parse
    (parse : list Token → list Token) (texts : list string) :
  ∃ doc, nlp parse texts = Ok doc ∧
    is_parsed doc = true ∧
    (∀ k value, k < length (tokens doc) →
                set_is_sent_start doc k value = Err FrozenStateError) ∧
    (set_custom_boundaries doc = Ok doc ∨
     set_custom_boundaries doc = Err FrozenStateError).
Proof.
  unfold nlp.
  destruct (set_custom_boundaries_spec (fresh texts) eq_refl)
    as (doc' & -> & _).
  exists (parser parse doc'). split_and!; [done..| |].
  - intros k value Hk. by apply set_is_sent_start_parsed.
  - apply set_custom_boundaries_loop_parsed; [done|]. apply removelast_bound.
Qed.

(** C6. Under the semicolon rule, on every document that is not yet
    parsed, the token right after a semicolon is flagged as a sentence
    start (and a flag is set only there); on the tokens A ; B . the
    sentences are exactly [A ;] and [B .]. *)
Theorem semicolon_rule_starts_sentence :
  (∀ doc, is_parsed doc = false →
     ∃ doc', set_custom_boundaries doc = Ok doc' ∧
       text <$> tokens doc' = text <$> tokens doc ∧
       ∀ k, flag_at (tokens doc') k = true ↔
            flag_at (tokens doc) k = true ∨
            ∃ j, k = S j ∧ k < length (tokens doc) ∧
                 text_at (tokens doc) j = Some ";") ∧
  (doc ← set_custom_boundaries semicolon_doc;
   Ok (span_texts doc <$> sents doc)) = Ok [["A"; ";"]; ["B"; "."]].
Proof.
  split; [|reflexivity].
  intros doc Hp.
  destruct (set_custom_boundaries_spec doc Hp) as (doc' & ? & _ & ? & ?).
  by exists doc'.
Qed.

Lemma semicolon_rule_starts_sentence_witness :
  is_parsed semicolon_doc = false ∧
  ∃ doc', set_custom_boundaries semicolon_doc = Ok doc' ∧
    flag_at (tokens doc') 2 = true.
Proof.
  split; [reflexivity|].
  destruct (proj1 semicolon_rule_starts_sentence semicolon_doc eq_refl)
    as (doc' & Hrun & _ & Hfl).
  exists doc'. split; [exact Hrun|]. apply Hfl. right. exists 1.
  split_and!; [reflexivity | simpl; lia | reflexivity].
Defined.

(** C7, as the code has it.  On a non-empty document every span the
    newline generator yields is non-empty.  Newline tokens that follow
    one another do not collapse into one boundary: the token after a
    newline token begins a span exactly when that newline token is the
    first token of the document or did not itself begin a span. *)
Theorem newline_spans_nonempty (doc : Doc) :
  tokens doc ≠ [] →
  Forall (λ s, start s < end_ s) (split_on_newlines doc) ∧
  ∀ k, S k < length (tokens doc) →
    (S k ∈ start <$> split_on_newlines doc ↔
     is_trigger (tokens doc) k = true ∧
     (k = 0 ∨ k ∉ start <$> split_on_newlines doc)).
Proof.
  intros Hne. split.
  - eapply chained_nonempty_spans. by apply split_on_newlines_chained.
  - intros k Hk.
    rewrite split_on_newlines_starts by lia.
    destruct (lookup_lt_is_Some_2 (tokens doc) k) as [w Hw]; [lia|].
    rewrite (pending_S _ _ _ _ Hw). unfold is_trigger. rewrite Hw.
    rewrite andb_true_iff, negb_true_iff.
    destruct k as [|k].
    + simpl. split; [intros (_ & _ & ?); auto | intros [? _]; auto].
    + rewrite split_on_newlines_starts by lia. split.
      * intros (_ & Hp & Ht). split; [done|]. right. intros [_ ?]. congruence.
      * intros [Ht [?|Hn]]; [done|]. split_and!; [done| |done].
        destruct (pending (tokens doc) false (S k)) eqn:E; [|done].
        destruct Hn. split; [lia | done].
Qed.

Lemma newline_spans_nonempty_witness :
  tokens three_newlines_doc ≠ [] ∧
  Forall (λ s, start s < end_ s) (split_on_newlines three_newlines_doc).
Proof.
  split; [discriminate|].
  apply (newline_spans_nonempty three_newlines_doc). discriminate.
Defined.

(** C7, as the specification states it, fails: after the word [a],
    three newline tokens in a row make two spans begin, at the second
    newline token and at the word after the third. *)
Lemma newline_runs_do_not_collapse : ¬ run_collapses three_newlines_doc.
Proof.
  intros H. specialize (H 1 4).
  assert (Hrun : trigger_run three_newlines_doc 1 4).
  { split; [lia|]. intros k Hk.
    destruct k as [|[|[|[|k]]]]; try lia; reflexivity. }
  apply H in Hrun. vm_compute in Hrun. lia.
Qed.

(** C8.  On the empty document the newline generator yields one span,
    the empty range from 0 to 0; the flag walk yields none. *)
Theorem split_on_newlines_empty_doc :
  split_on_newlines empty_doc = [mkSpan 0 0] ∧ sents empty_doc = [].
Proof. split; reflexivity. Qed.

(** C9. The semicolon rule never reads a token past the end of the
    document, so it never raises [IndexError]; when the only semicolon
    is the last token, it writes no flag and returns the document as it
    was. *)
Theorem out_of_range_neighbor_is_noop (doc : Doc) :
  set_custom_boundaries doc ≠ Err IndexError ∧
  ((∀ k, text_at (tokens doc) k = Some ";" → S k = length (tokens doc)) →
   set_custom_boundaries doc = Ok doc).
Proof.
  split.
  - apply set_custom_boundaries_loop_no_IndexError, removelast_bound.
  - intros Hlast. apply set_custom_boundaries_loop_no_semicolon.
    intros w Hw Hs. apply list_elem_of_lookup in Hw as [j Hj].
    apply removelast_lookup in Hj as [Hj Hlt].
    specialize (Hlast j). unfold text_at in Hlast. rewrite Hj in Hlast.
    simpl in Hlast. rewrite Hs in Hlast. specialize (Hlast eq_refl). lia.
Qed.

Lemma out_of_range_neighbor_is_noop_witness :
  (∀ k, text_at (tokens trailing_semicolon_doc) k = Some ";" →
        S k = length (tokens trailing_semicolon_doc)) ∧
  set_custom_boundaries trailing_semicolon_doc = Ok trailing_semicolon_doc.
Proof.
  assert (H : ∀ k, text_at (tokens trailing_semicolon_doc) k = Some ";" →
                   S k = length (tokens trailing_semicolon_doc)).
  { intros [|[|k]]; simpl; [discriminate | reflexivity | discriminate]. }
  split; [exact H|].
  apply (proj2 (out_of_range_neighbor_is_noop trailing_semicolon_doc)).
  exact H.
Defined.

End SegmenterProps.

Module StopWordsProps.
Import StopWords.

Section Lexemes.

Variable lex_is_stop : gset string → string → bool.

Lemma set_is_stop_vocab (st : State) (word : string) (value : bool) :
  vocab (set_is_stop lex_is_stop st word value) = <[word := value]> (vocab st).
Proof.
  unfold set_is_stop, vocab_getitem.
  destruct (vocab st !! word); simpl; [done|]. apply insert_insert_eq.
Qed.

Lemma set_is_stop_stop_words (st : State) (word : string) (value : bool) :
  stop_words (set_is_stop lex_is_stop st word value) = stop_words st.
Proof.
  unfold set_is_stop, vocab_getitem. by destruct (vocab st !! word).
Qed.

Lemma is_stop_after_set (st : State) (word : string) (value : bool) :
  is_stop lex_is_stop (set_is_stop lex_is_stop st word value) word = value.
Proof.
  unfold is_stop, vocab_getitem.
  by rewrite set_is_stop_vocab, lookup_insert_eq.
Qed.

(** C10, as the code has it.  For a word that is not in the stop-word
    set, the cell that adds it makes [is_stop] report true and the set
    one larger; the cell that removes it then runs without [KeyError],
    brings the set back to what it was (so also to its size) and makes
    [is_stop] report false.  The lexeme of the word is left in the
    vocabulary, tagged false: every [is_stop] query answers as it did at
    the start exactly when [is_stop] reported false for the word at the
    start. *)
Lemma remove_stop_word_clears (st st2 : State) (w : string) :
  remove_stop_word lex_is_stop st w = Ok st2 →
  is_stop lex_is_stop st2 w = false.
Proof.
  unfold remove_stop_word, stop_words_remove.
  destruct (decide (w ∈ stop_words st)); cbn [mbind result_bind]; [|done].
  intros [= <-]. apply is_stop_after_set.
Qed.

Theorem add_then_remove_stop_word (st : State) (w : string) :
  w ∉ stop_words st →
  let st1 := add_stop_word lex_is_stop st w in
  is_stop lex_is_stop st1 w = true ∧
  len_stop_words st1 = S (len_stop_words st) ∧
  ∃ st2, remove_stop_word lex_is_stop st1 w = Ok st2 ∧
    len_stop_words st2 = len_stop_words st ∧
    is_stop lex_is_stop st2 w = false ∧
    stop_words st2 = stop_words st ∧
    vocab st2 = <[w := false]> (vocab st) ∧
    (is_stop lex_is_stop st w = false ↔
     ∀ w', is_stop lex_is_stop st2 w' = is_stop lex_is_stop st w').
Proof.
  intros Hw st1.
  assert (Hsw1 : stop_words st1 = {[w]} ∪ stop_words st)
    by (unfold st1, add_stop_word; by rewrite set_is_stop_stop_words).
  assert (Hv1 : vocab st1 = <[w := true]> (vocab st))
    by (unfold st1, add_stop_word; by rewrite set_is_stop_vocab).
  assert (Hs1 : is_stop lex_is_stop st1 w = true)
    by apply (is_stop_after_set (stop_words_add st w) w true).
  clearbody st1. split_and!.
  - done.
  - unfold len_stop_words.
    rewrite Hsw1, size_union by (by apply disjoint_singleton_l).
    by rewrite size_singleton.
  - unfold remove_stop_word, stop_words_remove.
    rewrite decide_True
      by (rewrite Hsw1; by apply elem_of_union_l, elem_of_singleton).
    cbn [mbind result_bind].
    set (st' := mkState _ _). exists (set_is_stop lex_is_stop st' w false).
    assert (Hsw2 : stop_words (set_is_stop lex_is_stop st' w false)
                   = stop_words st).
    { rewrite set_is_stop_stop_words. unfold st'. simpl. rewrite Hsw1.
      apply set_eq. intros x.
      rewrite elem_of_difference, elem_of_union, elem_of_singleton.
      split; [by intros [[?|?] ?] | intros Hx; split; [by right | congruence]]. }
    assert (Hv2 : vocab (set_is_stop lex_is_stop st' w false)
                  = <[w := false]> (vocab st)).
    { rewrite set_is_stop_vocab. unfold st'. simpl. rewrite Hv1.
      apply insert_insert_eq. }
    split_and!; [done | | | done | done |].
    + unfold len_stop_words. by rewrite Hsw2.
    + apply is_stop_after_set.
    + split.
      * intros Hold w'. unfold is_stop, vocab_getitem in *.
        rewrite Hv2, Hsw2. destruct (decide (w' = w)) as [->|Hne].
        -- rewrite lookup_insert_eq.
           destruct (vocab st !! w); simpl in *; congruence.
        -- rewrite lookup_insert_ne by done. by destruct (vocab st !! w').
      * intros Hall. rewrite <- Hall. apply is_stop_after_set.
Qed.

End Lexemes.

Lemma add_then_remove_stop_word_witness :
  ("btw" ∉ stop_words small_state) ∧
  (is_stop (λ s w, bool_decide (w ∈ s))
           (add_stop_word (λ s w, bool_decide (w ∈ s)) small_state "btw")
           "btw" = true).
Proof.
  assert (H : "btw" ∉ stop_words small_state)
    by (apply (bool_decide_unpack _); vm_compute; exact I).
  split; [exact H|].
  apply (add_then_remove_stop_word (λ s w, bool_decide (w ∈ s))
           small_state "btw" H).
Defined.

(** C10, as the specification states it, fails: [The] is not in the
    set of [tagged_state] and its lexeme is tagged; adding it and
    removing it leaves the lexeme tagged false, so [is_stop] no longer
    answers for it as it did at the start. *)
Lemma add_then_remove_not_identity :
  ¬ (∀ (lex_is_stop : gset string → string → bool) (st : State) (w : string),
       w ∉ stop_words st →
       ∃ st2,
         remove_stop_word lex_is_stop (add_stop_word lex_is_stop st w) w
         = Ok st2 ∧
         stop_words st2 = stop_words st ∧
         ∀ w', is_stop lex_is_stop st2 w' = is_stop lex_is_stop st w').
Proof.
  intros H.
  assert (Hw : "The" ∉ stop_words tagged_state)
    by (apply (bool_decide_unpack _); vm_compute; exact I).
  destruct (H (λ _ _, false) tagged_state "The" Hw) as (st2 & Hrun & _ & Hq).
  apply remove_stop_word_clears in Hrun.
  specialize (Hq "The"). rewrite Hrun in Hq. discriminate Hq.
Qed.

End StopWordsProps.

Module VectorSpaceProps.
Import VectorSpace.

(** ** Numbers *)

Lemma norm_sq_zeros (n : nat) : norm_sq (replicate n 0%Q) == 0.
Proof.
  unfold norm_sq, dot. induction n as [|n IH]; simpl; [reflexivity|].
  rewrite IH. reflexivity.
Qed.

Lemma flt_num (x y : Q) : flt (Num x) (Num y) = true ↔ (x < y)%Q.
Proof.
  simpl. rewrite negb_true_iff. split.
  - intros E. apply Qnot_le_lt. intros Hle.
    apply Qle_bool_iff in Hle. congruence.
  - intros Hlt. destruct (Qle_bool y x) eqn:E; [|done].
    apply Qle_bool_iff in E. by apply Qlt_not_le in Hlt.
Qed.

(** ** Python's [sorted] *)

Lemma StronglySorted_weaken {A : Type} (R R' : A → A → Prop) (l : list A) :
  (∀ a b, R a b → R' a b) → StronglySorted R l → StronglySorted R' l.
Proof.
  intros HR. induction 1 as [|x l _ IH Hx]; constructor; [done|].
  eapply Forall_impl; [exact Hx | auto].
Qed.

Section Sorted.

Context {A : Type} (key : A → fnum).

Local Abbreviation is_num := (λ x : A, is_number (key x)).

Lemma insert_by_perm (x : A) (l : list A) : insert_by key x l ≡ₚ x :: l.
Proof.
  induction l as [|y l IH]; simpl; [done|].
  destruct (flt (key y) (key x)); [|done].
  rewrite IH. apply Permutation_swap.
Qed.

Lemma sorted_perm (l : list A) : sorted key l ≡ₚ l.
Proof.
  induction l as [|x l IH]; simpl; [done|].
  unfold sorted in *. by rewrite insert_by_perm, IH.
Qed.

Lemma insert_by_sorted (x : A) (l : list A) :
  is_num x → Forall is_num l →
  StronglySorted (λ a b, fle (key a) (key b)) l →
  StronglySorted (λ a b, fle (key a) (key b)) (insert_by key x l).
Proof.
  intros [qx Hx] Hnum Hsorted.
  induction Hsorted as [|y l Hsorted IH Hy]; simpl.
  - repeat constructor.
  - apply Forall_cons in Hnum as [[qy Hqy] Hnum].
    destruct (flt (key y) (key x)) eqn:E.
    + rewrite Hqy, Hx in E. apply flt_num in E.
      constructor; [by apply IH|].
      rewrite insert_by_perm. constructor; [|done].
      rewrite Hqy, Hx. simpl. by apply Qlt_le_weak.
    + assert (Hle : (qx <= qy)%Q).
      { rewrite Hqy, Hx in E. simpl in E. apply negb_false_iff in E.
        by apply Qle_bool_iff. }
      constructor; [by constructor|].
      constructor; [by rewrite Hx, Hqy|].
      eapply Forall_impl; [exact Hy|]. intros z Hz. simpl in *.
      rewrite Hx. rewrite Hqy in Hz.
      destruct (key z) as [qz|]; [|done]. simpl in *. by eapply Qle_trans.
Qed.

Lemma sorted_sorted (l : list A) :
  Forall is_num l →
  StronglySorted (λ a b, fle (key a) (key b)) (sorted key l).
Proof.
  induction l as [|x l IH]; intros Hnum; simpl; [constructor|].
  apply Forall_cons in Hnum as [Hx Hnum].
  apply insert_by_sorted; [done | | by apply IH].
  change (foldr (insert_by key) [] l) with (sorted key l).
  by rewrite sorted_perm.
Qed.

(** Stability: entries that a test [P] picks and of which none is below
    another keep the order they had. *)
Lemma insert_by_filter (P : A → bool) (x : A) (l : list A) :
  (∀ a b, P a = true → P b = true → flt (key a) (key b) = false) →
  List.filter P (insert_by key x l) = List.filter P (x :: l).
Proof.
  intros HP. induction l as [|y l IH]; [done|].
  cbn [insert_by]. destruct (flt (key y) (key x)) eqn:E; [|done].
  cbn [List.filter] in *. rewrite IH.
  destruct (P x) eqn:Hx, (P y) eqn:Hy; try done.
  rewrite (HP y x Hy Hx) in E. done.
Qed.

Lemma sorted_filter (P : A → bool) (l : list A) :
  (∀ a b, P a = true → P b = true → flt (key a) (key b) = false) →
  List.filter P (sorted key l) = List.filter P l.
Proof.
  intros HP. induction l as [|x l IH]; [done|].
  change (sorted key (x :: l)) with (insert_by key x (sorted key l)).
  rewrite insert_by_filter by done. cbn [List.filter]. by rewrite IH.
Qed.

End Sorted.

(** ** The similarity and the loop *)

Section Library.

Variable scipy_cosine : Vec → Vec → option fnum.

Local Abbreviation distance_cosine := (distance_cosine scipy_cosine).
Local Abbreviation cosine_similarity := (cosine_similarity scipy_cosine).
Local Abbreviation computed_similarities :=
  (computed_similarities scipy_cosine).
Local Abbreviation computed_similarities1 :=
  (computed_similarities1 scipy_cosine).
Local Abbreviation analogy := (analogy scipy_cosine).

Lemma computed_similarities_acc
    (score : Lexeme → Q) (vocab : list Lexeme) (new_vector : Vec)
    (acc : list (Lexeme * fnum)) :
  (∀ word, word ∈ vocab → passes word = true →
           cosine_similarity new_vector (vector word)
           = Ok (Num (score word))) →
  foldl (λ acc word,
           computed ← acc;
           if has_vector word then
             if is_lower word then
               if is_alpha word then
                 similarity ← cosine_similarity new_vector (vector word);
                 Ok (computed ++ [(word, similarity)])
               else Ok computed
             else Ok computed
           else Ok computed)
        (Ok acc) vocab
  = Ok (acc ++ scored score vocab).
Proof.
  revert acc; induction vocab as [|word vocab IH]; intros acc Hscore.
  - simpl. by rewrite app_nil_r.
  - cbn [foldl mbind result_bind].
    assert (Hrest : ∀ w, w ∈ vocab → passes w = true →
                         cosine_similarity new_vector (vector w)
                         = Ok (Num (score w)))
      by (intros w Hw; apply Hscore; by right).
    specialize (Hscore word (list_elem_of_here _ _)).
    unfold scored, passes in *. cbn [List.filter].
    destruct (has_vector word), (is_lower word), (is_alpha word);
      simpl in *; try (by apply IH).
    rewrite (Hscore eq_refl). cbn [mbind result_bind].
    rewrite (IH _ Hrest). by rewrite <- app_assoc.
Qed.

Lemma computed_similarities_scored
    (score : Lexeme → Q) (vocab : list Lexeme) (new_vector : Vec) :
  (∀ word, word ∈ vocab → passes word = true →
           cosine_similarity new_vector (vector word)
           = Ok (Num (score word))) →
  computed_similarities vocab new_vector = Ok (scored score vocab).
Proof.
  intros Hscore.
  apply (computed_similarities_acc score vocab new_vector [] Hscore).
Qed.

(** When every similarity of the loop returns a number, the ranking is
    a stable descending arrangement of the scored entries. *)
Lemma ranking_spec
    (score : Lexeme → Q) (vocab : list Lexeme) (new_vector : Vec) :
  (∀ word, word ∈ vocab → passes word = true →
           cosine_similarity new_vector (vector word)
           = Ok (Num (score word))) →
  ∃ ranked, computed_similarities1 vocab new_vector = Ok ranked ∧
    ranked ≡ₚ scored score vocab ∧
    StronglySorted (λ a b, fle b.2 a.2) ranked ∧
    ∀ q, List.filter (λ item, feqb item.2 q) ranked =
         List.filter (λ item, feqb item.2 q) (scored score vocab).
Proof.
  intros Hscore. unfold VectorSpace.computed_similarities1.
  rewrite (computed_similarities_scored score vocab new_vector Hscore).
  cbn [mbind result_bind]. eexists. split; [reflexivity|]. split_and!.
  - apply sorted_perm.
  - eapply StronglySorted_weaken; [|apply sorted_sorted].
    + intros a b Hab. simpl in Hab.
      destruct (a.2) as [x|], (b.2) as [y|]; simpl in *; try done.
      apply Qopp_le_compat in Hab. by rewrite !Qopp_involutive in Hab.
    + unfold scored. apply Forall_fmap, Forall_forall. intros word _.
      by eexists.
  - intros q. apply sorted_filter. intros a b Ha Hb.
    destruct (a.2) as [x|], (b.2) as [y|]; simpl in *; try done.
    apply Qeq_bool_iff in Ha, Hb. apply negb_false_iff, Qle_bool_iff.
    rewrite Ha, Hb. apply Qle_refl.
Qed.

Lemma analogy_target (vocab : list Lexeme) (king man woman : Vec) :
  length king = length man → length man = length woman →
  analogy vocab king man woman =
  computed_similarities1 vocab
    (zip_with Qplus (zip_with Qminus king man) woman).
Proof.
  intros H1 H2. unfold VectorSpace.analogy, vsub, vadd, elementwise.
  rewrite bool_decide_eq_true_2 by done. cbn [mbind result_bind].
  rewrite bool_decide_eq_true_2; [done|].
  rewrite length_zip_with. lia.
Qed.

(** ** Theorems of the vector space *)

(** C4, as the code has it.  When one of the two vectors has norm 0 the
    similarity does not fail with [DegenerateVectorError]; when the two
    have one length it raises nothing at all: the division 0/0 is done
    and the result is NaN. *)
Theorem similarity_of_zero_norm (a b : Vec) :
  norm_sq a == 0 ∨ norm_sq b == 0 →
  cosine_similarity a b ≠ Err DegenerateVectorError ∧
  (length a = length b → cosine_similarity a b = Ok NaN).
Proof.
  intros Hzero.
  assert (Hprod : Qeq_bool (norm_sq a * norm_sq b) 0 = true).
  { apply Qeq_bool_iff. destruct Hzero as [H|H]; rewrite H.
    - apply Qmult_0_l.
    - apply Qmult_0_r. }
  unfold VectorSpace.cosine_similarity, VectorSpace.distance_cosine.
  rewrite Hprod. split.
  - destruct (bool_decide (length a = length b)); cbn [andb];
      [done | by destruct (scipy_cosine a b)].
  - intros Hlen. by rewrite bool_decide_eq_true_2.
Qed.

(** C5, as the code has it.  With three vectors of one length the
    target is [vector(w1) - vector(w2) + vector(w3)].  When the
    similarity to the target returns a number for every lexeme that has
    a vector, is lowercase and is alphabetic, the query returns the
    (lexeme, score) pairs of exactly those lexemes, in descending order
    of score; entries with the same score stay in the order in which
    the vocabulary yields them. *)
Theorem analogy_ranking
    (score : Lexeme → Q) (vocab : list Lexeme) (king man woman : Vec) :
  length king = length man → length man = length woman →
  let target := zip_with Qplus (zip_with Qminus king man) woman in
  (∀ word, word ∈ vocab → passes word = true →
           cosine_similarity target (vector word) = Ok (Num (score word))) →
  ∃ ranked, analogy vocab king man woman = Ok ranked ∧
    ranked ≡ₚ scored score vocab ∧
    StronglySorted (λ a b, fle b.2 a.2) ranked ∧
    ∀ q, List.filter (λ item, feqb item.2 q) ranked =
         List.filter (λ item, feqb item.2 q) (scored score vocab).
Proof.
  intros H1 H2 target Hscore.
  rewrite (analogy_target vocab king man woman H1 H2).
  by apply ranking_spec.
Qed.

End Library.

(** C3.  For every word that the mapping does not hold, [get] fails
    with [OutOfVocabulary] and returns no vector; the entry of the word
    reports no vector, and the norm of its vector is exactly 0. *)
Theorem get_unseen_fails (space : Space) (word : string) :
  mapping space !! word = None →
  get space word = Err OutOfVocabulary ∧
  (∀ v, get space word ≠ Ok v) ∧
  has_vector_of space word = false ∧
  vector_norm_sq space word == 0.
Proof.
  intros Hnone.
  assert (Hvec : vector_of space word = replicate (dimension space) 0%Q).
  { unfold vector_of, Vec in *. by rewrite Hnone. }
  unfold get, has_vector_of, vector_norm_sq. rewrite Hvec.
  unfold Vec in *. rewrite Hnone.
  split_and!; [done | done | | apply norm_sq_zeros].
  apply bool_decide_eq_false_2. by intros [v ?].
Qed.

Lemma get_unseen_fails_witness :
  mapping small_space !! "nargle" = None ∧
  get small_space "nargle" = Err OutOfVocabulary.
Proof.
  split; [reflexivity|].
  apply (get_unseen_fails small_space "nargle"). reflexivity.
Defined.

Lemma similarity_of_zero_norm_witness :
  (norm_sq [0; 0]%Q == 0 ∨ norm_sq [1; 0]%Q == 0) ∧
  cosine_similarity zero_distance [0; 0]%Q [1; 0]%Q = Ok NaN.
Proof.
  assert (H : norm_sq [0; 0]%Q == 0 ∨ norm_sq [1; 0]%Q == 0)
    by (left; reflexivity).
  split; [exact H|].
  apply (similarity_of_zero_norm zero_distance [0; 0]%Q [1; 0]%Q H).
  reflexivity.
Defined.

(** C4, as the specification states it, fails: with the zero vector as
    an argument the similarity returns NaN and does not end in
    [DegenerateVectorError]. *)
Lemma similarity_zero_norm_does_not_fail :
  ¬ (∀ (scipy_cosine : Vec → Vec → option fnum) (a b : Vec),
       norm_sq a == 0 ∨ norm_sq b == 0 →
       cosine_similarity scipy_cosine a b = Err DegenerateVectorError).
Proof.
  intros H.
  specialize (H zero_distance [0; 0]%Q [1; 0]%Q (or_introl eq_refl)).
  discriminate H.
Qed.

Lemma analogy_ranking_witness :
  length [1; 0]%Q = length [0; 0]%Q ∧
  length [0; 0]%Q = length [0; 0]%Q ∧
  (∀ word, word ∈ [lex_overlord; lex_king] → passes word = true →
           cosine_similarity zero_distance
             (zip_with Qplus (zip_with Qminus [1; 0]%Q [0; 0]%Q) [0; 0]%Q)
             (vector word)
           = Ok (Num ((λ _, 1%Q) word))) ∧
  ∃ ranked,
    analogy zero_distance [lex_overlord; lex_king]
            [1; 0]%Q [0; 0]%Q [0; 0]%Q = Ok ranked ∧
    ranked ≡ₚ scored (λ _, 1%Q) [lex_overlord; lex_king].
Proof.
  assert (H1 : length [1; 0]%Q = length [0; 0]%Q) by reflexivity.
  assert (H2 : length [0; 0]%Q = length [0; 0]%Q) by reflexivity.
  assert (H3 : ∀ word, word ∈ [lex_overlord; lex_king] →
             passes word = true →
             cosine_similarity zero_distance
               (zip_with Qplus (zip_with Qminus [1; 0]%Q [0; 0]%Q) [0; 0]%Q)
               (vector word)
             = Ok (Num ((λ _, 1%Q) word))).
  { intros word Hword _. rewrite !elem_of_cons in Hword.
    destruct Hword as [->|[->|Hword]]; [reflexivity | reflexivity |].
    by apply elem_of_nil in Hword. }
  split_and!; [exact H1 | exact H2 | exact H3 |].
  destruct (analogy_ranking zero_distance (λ _, 1%Q)
              [lex_overlord; lex_king] [1; 0]%Q [0; 0]%Q [0; 0]%Q H1 H2 H3)
    as (ranked & Hrun & Hperm & _).
  exists ranked. split; [exact Hrun | exact Hperm].
Defined.

(** C5, as the specification states it, fails: two lexemes with one
    vector get one score and stay in the order in which the vocabulary
    yields them, [overlord] before [king], which is not the lexical
    order. *)
Lemma analogy_ties_not_lexical :
  ¬ (∀ (scipy_cosine : Vec → Vec → option fnum) (vocab : list Lexeme)
       (new_vector : Vec) (ranked : list (Lexeme * fnum)),
       computed_similarities1 scipy_cosine vocab new_vector = Ok ranked →
       ties_lexical ranked).
Proof.
  intros H.
  specialize (H zero_distance [lex_overlord; lex_king] [1; 0]%Q
                [(lex_overlord, Num 1); (lex_king, Num 1)] eq_refl).
  specialize (H 0 1 _ _ (Nat.lt_0_1) eq_refl eq_refl (Qeq_refl _)).
  discriminate H.
Qed.

End VectorSpaceProps.

Module SegmenterMore.
Import Segmenter SegmenterProps.

(** ** More on the semicolon rule *)

(** Tokens are determined by their texts and their flags. *)
Lemma tokens_ext (ts ts' : list Token) :
  text <$> ts = text <$> ts' →
  (∀ k, flag_at ts k = flag_at ts' k) →
  ts = ts'.
Proof.
  intros Htxt Hfl. apply list_eq. intros k.
  assert (Hk : text <$> ts !! k = text <$> ts' !! k)
    by (by rewrite <- !list_lookup_fmap, Htxt).
  specialize (Hfl k). unfold flag_at in Hfl.
  destruct (ts !! k) as [[x f]|], (ts' !! k) as [[x' f']|]; simplify_eq/=; done.
Qed.

(** Running the rule a second time changes nothing: what it had to
    flag is flagged already. *)
Theorem set_custom_boundaries_idempotent (doc : Doc) :
  is_parsed doc = false →
  ∃ doc', set_custom_boundaries doc = Ok doc' ∧
          set_custom_boundaries doc' = Ok doc'.
Proof.
  intros Hp.
  destruct (set_custom_boundaries_spec doc Hp)
    as (doc' & Hrun & Hp' & Htxt & Hfl).
  exists doc'. split; [done|].
  destruct (set_custom_boundaries_spec doc' Hp')
    as (doc'' & Hrun' & Hp'' & Htxt' & Hfl').
  rewrite Hrun'. f_equal.
  assert (Hlen : length (tokens doc') = length (tokens doc))
    by (by rewrite <- (length_fmap text), Htxt, length_fmap).
  assert (Htok : tokens doc'' = tokens doc').
  { apply tokens_ext; [done|]. intros k.
    destruct (flag_at (tokens doc') k) eqn:E.
    - apply Hfl'. by left.
    - destruct (flag_at (tokens doc'') k) eqn:E'; [|done].
      apply Hfl' in E' as [?|(j & -> & Hlt & Hs)]; [congruence|].
      rewrite <- E. symmetry. apply Hfl. right. exists j.
      split_and!; [done | lia |].
      unfold text_at in *.
      by rewrite <- list_lookup_fmap, <- Htxt, list_lookup_fmap. }
  destruct doc' as [ts' p'], doc'' as [ts'' p'']. simpl in *. congruence.
Qed.

Lemma set_custom_boundaries_idempotent_witness :
  is_parsed semicolon_doc = false ∧
  ∃ doc', set_custom_boundaries semicolon_doc = Ok doc' ∧
          set_custom_boundaries doc' = Ok doc'.
Proof.
  split; [reflexivity|].
  apply (set_custom_boundaries_idempotent semicolon_doc). reflexivity.
Defined.

Lemma set_custom_boundaries_loop_refused
    (words : list Token) (i : nat) (doc : Doc) :
  is_parsed doc = true →
  i + length words < length (tokens doc) →
  (∃ w, w ∈ words ∧ text w = ";") →
  set_custom_boundaries_loop words i doc = Err ValueError_E043.
Proof.
  revert i; induction words as [|w words IH]; intros i Hp Hlen (w' & Hin & Hs).
  - by apply elem_of_nil in Hin.
  - simpl in Hlen. cbn [set_custom_boundaries_loop].
    destruct (String.eqb (text w) ";") eqn:E.
    + destruct (lookup_lt_is_Some_2 (tokens doc) (i + 1)) as [t Ht]; [lia|].
      unfold set_is_sent_start. by rewrite Ht, Hp.
    + cbn [mbind result_bind]. apply IH; [done | lia |].
      apply elem_of_cons in Hin as [->|Hin].
      * apply String.eqb_neq in E. done.
      * by exists w'.
Qed.

(** On a parsed document the rule is refused exactly when it has a
    flag to write, that is when a semicolon stands before the last
    token; otherwise it returns the document as it was. *)
Theorem set_custom_boundaries_on_parsed (doc : Doc) :
  is_parsed doc = true →
  ((∃ k, S k < length (tokens doc) ∧ text_at (tokens doc) k = Some ";") →
   set_custom_boundaries doc = Err ValueError_E043) ∧
  ((∀ k, S k < length (tokens doc) → text_at (tokens doc) k ≠ Some ";") →
   set_custom_boundaries doc = Ok doc).
Proof.
  intros Hp. unfold set_custom_boundaries, text_at. split.
  - intros (k & Hlt & Hs).
    destruct (tokens doc !! k) as [w|] eqn:Hw; simplify_eq/=.
    destruct (removelast_bound (tokens doc)) as [Hnil|Hlen].
    + assert (Hrl : removelast (tokens doc) !! k = Some w)
        by (by apply removelast_lookup).
      by rewrite Hnil in Hrl.
    + apply set_custom_boundaries_loop_refused; [done..|].
      exists w. split; [|done]. eapply list_elem_of_lookup_2.
      by apply removelast_lookup.
  - intros Hno. apply set_custom_boundaries_loop_no_semicolon.
    intros w Hw Hs. apply list_elem_of_lookup in Hw as [j Hj].
    apply removelast_lookup in Hj as [Hj Hlt].
    apply (Hno j Hlt). by rewrite Hj, <- Hs.
Qed.

Lemma set_custom_boundaries_on_parsed_witness :
  is_parsed parsed_semicolon_doc = true ∧
  set_custom_boundaries parsed_semicolon_doc = Err ValueError_E043.
Proof.
  split; [reflexivity|].
  apply (set_custom_boundaries_on_parsed parsed_semicolon_doc eq_refl).
  exists 1. split; [simpl; lia | reflexivity].
Defined.

(** ** More on the newline generator *)

Lemma chained_texts (ts : list Token) (a b : nat) (ss : list Span) :
  chained a b ss →
  concat ((λ s, text <$> take (end_ s - start s) (drop (start s) ts)) <$> ss)
  = text <$> take (b - a) (drop a ts).
Proof.
  revert a; induction ss as [|s ss IH]; intros a; cbn [chained].
  - intros ->. by rewrite Nat.sub_diag.
  - intros (Hs & Hlt & Hrest).
    pose proof (chained_le _ _ _ Hrest) as Hle.
    rewrite fmap_cons. cbn [concat]. rewrite (IH _ Hrest), Hs.
    rewrite <- fmap_app. f_equal.
    replace (b - a) with ((end_ s - a) + (b - end_ s)) by lia.
    rewrite <- take_take_drop, drop_drop. do 3 f_equal. lia.
Qed.

(** Reading the spans one after the other gives back the texts of the
    document, whatever the document. *)
Theorem split_on_newlines_texts (doc : Doc) :
  concat (span_texts doc <$> split_on_newlines doc) = text <$> tokens doc.
Proof.
  destruct (tokens doc) as [|t ts] eqn:Htok.
  - unfold split_on_newlines, span_texts. by rewrite Htok.
  - assert (Hne : tokens doc ≠ []) by (by rewrite Htok).
    pose proof (split_on_newlines_chained doc Hne) as Hch.
    unfold span_texts.
    rewrite (chained_texts (tokens doc) _ _ _ Hch).
    by rewrite Nat.sub_0_r, drop_0, firstn_all, Htok.
Qed.

Lemma split_on_newlines_loop_pattern
    (words words' : list Token) (i st : nat) (seen : bool) (n : nat) :
  is_newline_token <$> words = is_newline_token <$> words' →
  split_on_newlines_loop words i st seen n =
  split_on_newlines_loop words' i st seen n.
Proof.
  revert words' i st seen;
    induction words as [|w words IH]; intros [|w' words'] i st seen Hpat;
    try done.
  rewrite !fmap_cons in Hpat. injection Hpat as Hw Hrest.
  unfold is_newline_token in Hw. cbn [split_on_newlines_loop]. rewrite Hw.
  destruct seen; [f_equal|destruct (startswith (text w') newline)]; by apply IH.
Qed.

(** Only line breaks matter: two documents whose tokens begin with a
    newline at the same places get the same spans, whatever the other
    texts, the flags or the parse. *)
Theorem split_on_newlines_pattern (doc doc' : Doc) :
  is_newline_token <$> tokens doc = is_newline_token <$> tokens doc' →
  split_on_newlines doc = split_on_newlines doc'.
Proof.
  intros Hpat. unfold split_on_newlines.
  assert (Hlen : length (tokens doc) = length (tokens doc'))
    by (by rewrite <- (length_fmap is_newline_token), Hpat, length_fmap).
  rewrite Hlen. by apply split_on_newlines_loop_pattern.
Qed.

Lemma split_on_newlines_pattern_witness :
  is_newline_token <$> tokens newline_doc
  = is_newline_token <$> tokens tweet_doc ∧
  split_on_newlines newline_doc = split_on_newlines tweet_doc.
Proof.
  split; [reflexivity|].
  apply (split_on_newlines_pattern newline_doc tweet_doc). reflexivity.
Defined.

Lemma split_on_newlines_loop_length
    (words : list Token) (i st : nat) (seen : bool) (n : nat) :
  0 < length (split_on_newlines_loop words i st seen n).
Proof.
  revert i st seen; induction words as [|w words IH]; intros i st seen;
    simpl; [lia|].
  destruct seen; simpl; [lia|].
  destruct (startswith (text w) newline); apply IH.
Qed.

Lemma split_on_newlines_loop_single
    (words : list Token) (i st n : nat) :
  split_on_newlines_loop words i st false n = [mkSpan st n] ↔
  Forall (λ w, is_newline_token w = false) (removelast words).
Proof.
  revert i; induction words as [|w words IH]; intros i.
  - simpl. split; [constructor | done].
  - cbn [split_on_newlines_loop]. unfold is_newline_token in *.
    destruct words as [|w' words].
    + simpl. split; [constructor|]. by destruct (startswith _ _).
    + change (removelast (w :: w' :: words))
        with (w :: removelast (w' :: words)).
      rewrite Forall_cons. destruct (startswith (text w) newline) eqn:E.
      * cbn [split_on_newlines_loop]. split; [|by intros [? _]].
        intros H. pose proof (split_on_newlines_loop_length words (S (S i))
                                (S i) false n) as Hl.
        apply (f_equal length) in H. simpl in H. lia.
      * rewrite IH. split; [done | by intros [_ ?]].
Qed.

(** The generator yields the whole document as one span exactly when
    no token before the last one begins with a newline. *)
Theorem split_on_newlines_single_span (doc : Doc) :
  split_on_newlines doc = [mkSpan 0 (length (tokens doc))] ↔
  ∀ k, S k < length (tokens doc) → is_trigger (tokens doc) k = false.
Proof.
  unfold split_on_newlines. rewrite split_on_newlines_loop_single.
  rewrite Forall_lookup. unfold is_trigger, is_newline_token. split.
  - intros H k Hk.
    destruct (lookup_lt_is_Some_2 (tokens doc) k) as [w Hw]; [lia|].
    rewrite Hw. apply (H k). by apply removelast_lookup.
  - intros H k w Hw. apply removelast_lookup in Hw as [Hw Hk].
    specialize (H k Hk). by rewrite Hw in H.
Qed.

Lemma chained_next (a b : nat) (ss : list Span) (i : nat) (s s' : Span) :
  chained a b ss → ss !! i = Some s → ss !! S i = Some s' →
  start s' = end_ s ∧ start s < end_ s.
Proof.
  revert a i; induction ss as [|s0 ss IH]; intros a i Hch Hs Hs'; [done|].
  cbn [chained] in Hch. destruct Hch as (Hst & Hlt & Hrest).
  destruct i as [|i]; simplify_eq/=.
  - destruct ss as [|s1 ss]; simplify_eq/=.
    destruct Hrest as (-> & _). split; [done | lia].
  - by eapply IH.
Qed.

(** Every span but the last ends with a token that begins with a
    newline. *)
Theorem split_on_newlines_span_ends (doc : Doc) (i : nat) (s : Span) :
  split_on_newlines doc !! i = Some s →
  S i < length (split_on_newlines doc) →
  is_trigger (tokens doc) (end_ s - 1) = true.
Proof.
  intros Hs Hi.
  destruct (lookup_lt_is_Some_2 (split_on_newlines doc) (S i)) as [s' Hs'];
    [done|].
  assert (Hne : tokens doc ≠ []).
  { intros Hnil. unfold split_on_newlines in Hi. rewrite Hnil in Hi.
    simpl in Hi. lia. }
  destruct (chained_next _ _ _ _ _ _ (split_on_newlines_chained doc Hne)
              Hs Hs') as [Hst Hlt].
  assert (Hin : end_ s ∈ start <$> split_on_newlines doc).
  { rewrite <- Hst. apply list_elem_of_fmap. exists s'. split; [done|].
    by eapply list_elem_of_lookup_2. }
  apply split_on_newlines_starts in Hin as [Hn Hp]; [|lia].
  destruct (end_ s) as [|k] eqn:He; [lia|].
  replace (S k - 1) with k by lia.
  destruct (lookup_lt_is_Some_2 (tokens doc) k) as [w Hw]; [lia|].
  rewrite (pending_S _ _ _ _ Hw) in Hp.
  apply andb_true_iff in Hp as [_ Hp]. unfold is_trigger. by rewrite Hw.
Qed.

Lemma split_on_newlines_span_ends_witness :
  split_on_newlines mystring_doc !! 0 = Some (mkSpan 0 10) ∧
  1 < length (split_on_newlines mystring_doc) ∧
  is_trigger (tokens mystring_doc) (10 - 1) = true.
Proof.
  assert (H1 : split_on_newlines mystring_doc !! 0 = Some (mkSpan 0 10))
    by reflexivity.
  assert (H2 : 1 < length (split_on_newlines mystring_doc))
    by (vm_compute; lia).
  split_and!; [exact H1 | exact H2 |].
  apply (split_on_newlines_span_ends mystring_doc 0 (mkSpan 0 10) H1 H2).
Defined.

Lemma split_on_newlines_loop_count
    (words : list Token) (i st : nat) (seen : bool) (n : nat) :
  length (split_on_newlines_loop words i st seen n) ≤
  1 + (if seen then 1 else 0) + length (List.filter is_newline_token words).
Proof.
  revert i st seen; induction words as [|w words IH]; intros i st seen.
  - simpl. lia.
  - cbn [split_on_newlines_loop List.filter]. unfold is_newline_token in *.
    destruct seen.
    + specialize (IH (S i) i false). cbn [length].
      destruct (startswith (text w) newline); simpl in *; lia.
    + destruct (startswith (text w) newline).
      * specialize (IH (S i) st true). simpl in *. lia.
      * specialize (IH (S i) st false). simpl in *. lia.
Qed.

(** There is never more than one span more than there are tokens that
    begin with a newline. *)
Theorem split_on_newlines_count (doc : Doc) :
  length (split_on_newlines doc) ≤
  1 + length (List.filter is_newline_token (tokens doc)).
Proof.
  unfold split_on_newlines.
  pose proof (split_on_newlines_loop_count (tokens doc) 0 0 false
                (length (tokens doc))) as H.
  simpl in H. lia.
Qed.

End SegmenterMore.

Module StopWordsMore.
Import StopWords StopWordsProps.

Section Lexemes.

Variable lex_is_stop : gset string → string → bool.

Lemma add_stop_word_stop_words (st : State) (w : string) :
  stop_words (add_stop_word lex_is_stop st w) = {[w]} ∪ stop_words st.
Proof. unfold add_stop_word. by rewrite set_is_stop_stop_words. Qed.

Lemma add_stop_word_vocab (st : State) (w : string) :
  vocab (add_stop_word lex_is_stop st w) = <[w := true]> (vocab st).
Proof. unfold add_stop_word. by rewrite set_is_stop_vocab. Qed.

(** Removing a word that is not in the set ends in [KeyError]; removing
    one that is in it makes the set smaller by exactly one and makes
    [is_stop] report false. *)
Theorem remove_stop_word_outcome (st : State) (w : string) :
  (w ∉ stop_words st → remove_stop_word lex_is_stop st w = Err KeyError) ∧
  (w ∈ stop_words st →
   ∃ st', remove_stop_word lex_is_stop st w = Ok st' ∧
     (w ∉ stop_words st') ∧
     S (len_stop_words st') = len_stop_words st ∧
     is_stop lex_is_stop st' w = false).
Proof.
  unfold remove_stop_word, stop_words_remove. split; intros Hw.
  - by rewrite decide_False.
  - rewrite decide_True by done. cbn [mbind result_bind].
    eexists. split; [reflexivity|].
    unfold len_stop_words. rewrite set_is_stop_stop_words. simpl.
    split_and!.
    + rewrite elem_of_difference, elem_of_singleton. by intros [_ ?].
    + rewrite size_difference by (by apply singleton_subseteq_l).
      rewrite size_singleton.
      assert (size (stop_words st) ≠ 0); [|lia].
      intros Hz. apply size_empty_inv in Hz.
      pose proof (proj1 (Hz w) Hw) as Hbad.
      by apply not_elem_of_empty in Hbad.
    + apply is_stop_after_set.
Qed.

(** Adding a word twice is the same as adding it once, and adding a
    word that is in the set already leaves the size of the set as it
    was. *)
Theorem add_stop_word_again (st : State) (w : string) :
  add_stop_word lex_is_stop (add_stop_word lex_is_stop st w) w
  = add_stop_word lex_is_stop st w ∧
  (w ∈ stop_words st →
   len_stop_words (add_stop_word lex_is_stop st w) = len_stop_words st).
Proof.
  split.
  - assert (Heq : ∀ a b : State,
               stop_words a = stop_words b → vocab a = vocab b → a = b)
      by (intros [] [] ??; simpl in *; congruence).
    apply Heq.
    + rewrite !add_stop_word_stop_words. apply set_eq. intros x.
      rewrite !elem_of_union. tauto.
    + rewrite !add_stop_word_vocab. apply insert_insert_eq.
  - intros Hw. unfold len_stop_words. rewrite add_stop_word_stop_words.
    f_equal.
    apply set_eq. intros x. rewrite elem_of_union, elem_of_singleton.
    split; [intros [->|?]; done | by right].
Qed.

(** Removing a stop word and adding it again brings the set back to
    what it was, with the word tagged as a stop word. *)
Theorem remove_then_add_stop_word (st : State) (w : string) :
  w ∈ stop_words st →
  ∃ st1, remove_stop_word lex_is_stop st w = Ok st1 ∧
    let st2 := add_stop_word lex_is_stop st1 w in
    stop_words st2 = stop_words st ∧
    len_stop_words st2 = len_stop_words st ∧
    is_stop lex_is_stop st2 w = true ∧
    vocab st2 = <[w := true]> (vocab st).
Proof.
  intros Hw. unfold remove_stop_word, stop_words_remove.
  rewrite decide_True by done. cbn [mbind result_bind].
  eexists. split; [reflexivity|]. cbv zeta.
  assert (Hsw : stop_words (add_stop_word lex_is_stop
                  (set_is_stop lex_is_stop
                     (mkState (stop_words st ∖ {[w]}) (vocab st)) w false) w)
                = stop_words st).
  { rewrite add_stop_word_stop_words, set_is_stop_stop_words.
    cbn [stop_words].
    apply set_eq. intros x.
    rewrite elem_of_union, elem_of_difference, elem_of_singleton.
    split; [intros [->|[? _]]; done|].
    intros Hx. destruct (decide (x = w)); [by left | by right]. }
  split_and!.
  - done.
  - unfold len_stop_words. by rewrite Hsw.
  - apply is_stop_after_set.
  - rewrite add_stop_word_vocab, set_is_stop_vocab. cbn [vocab].
    apply insert_insert_eq.
Qed.

(** Adding or removing a word touches no other word: every other word
    is in the set after the cell exactly when it was before, and the
    tag of its lexeme is what it was. *)
Theorem stop_word_cells_frame (st : State) (w w' : string) :
  w' ≠ w →
  (let st1 := add_stop_word lex_is_stop st w in
   (w' ∈ stop_words st1 ↔ w' ∈ stop_words st) ∧
   vocab st1 !! w' = vocab st !! w') ∧
  (∀ st1, remove_stop_word lex_is_stop st w = Ok st1 →
   (w' ∈ stop_words st1 ↔ w' ∈ stop_words st) ∧
   vocab st1 !! w' = vocab st !! w').
Proof.
  intros Hne. split.
  - cbv zeta. rewrite add_stop_word_stop_words, add_stop_word_vocab.
    rewrite lookup_insert_ne by done. split; [|done].
    rewrite elem_of_union, elem_of_singleton. split; [by intros [?|?] | by right].
  - intros st1. unfold remove_stop_word, stop_words_remove.
    case_decide; cbn [mbind result_bind]; [|done].
    intros [= <-]. rewrite set_is_stop_stop_words, set_is_stop_vocab.
    cbn [stop_words vocab]. rewrite lookup_insert_ne by done. split; [|done].
    rewrite elem_of_difference, elem_of_singleton. split; [by intros [? _] | done].
Qed.

End Lexemes.

Lemma remove_stop_word_outcome_witness :
  ("the" ∈ stop_words small_state) ∧
  ∃ st', remove_stop_word (λ s w, bool_decide (w ∈ s)) small_state "the"
         = Ok st' ∧
         ("the" ∉ stop_words st').
Proof.
  assert (H : "the" ∈ stop_words small_state)
    by (apply (bool_decide_unpack _); vm_compute; exact I).
  split; [exact H|].
  destruct (proj2 (remove_stop_word_outcome (λ s w, bool_decide (w ∈ s))
                     small_state "the") H)
    as (st' & Hrun & Hout & _).
  exists st'. split; [exact Hrun | exact Hout].
Defined.

Lemma add_stop_word_again_witness :
  ("the" ∈ stop_words small_state) ∧
  len_stop_words (add_stop_word (λ s w, bool_decide (w ∈ s)) small_state "the")
  = len_stop_words small_state.
Proof.
  assert (H : "the" ∈ stop_words small_state)
    by (apply (bool_decide_unpack _); vm_compute; exact I).
  split; [exact H|].
  apply (proj2 (add_stop_word_again (λ s w, bool_decide (w ∈ s))
                  small_state "the") H).
Defined.

Lemma remove_then_add_stop_word_witness :
  ("the" ∈ stop_words small_state) ∧
  ∃ st1, remove_stop_word (λ s w, bool_decide (w ∈ s)) small_state "the"
         = Ok st1 ∧
    stop_words (add_stop_word (λ s w, bool_decide (w ∈ s)) st1 "the")
    = stop_words small_state.
Proof.
  assert (H : "the" ∈ stop_words small_state)
    by (apply (bool_decide_unpack _); vm_compute; exact I).
  split; [exact H|].
  destruct (remove_then_add_stop_word (λ s w, bool_decide (w ∈ s))
              small_state "the" H)
    as (st1 & Hrun & Hsw & _).
  exists st1. split; [exact Hrun | exact Hsw].
Defined.

Lemma stop_word_cells_frame_witness :
  ("a" ≠ "the") ∧
  ("a" ∈ stop_words (add_stop_word (λ s w, bool_decide (w ∈ s))
                       small_state "the")
   ↔ "a" ∈ stop_words small_state).
Proof.
  assert (H : "a" ≠ "the") by discriminate.
  split; [exact H|].
  apply (proj1 (stop_word_cells_frame (λ s w, bool_decide (w ∈ s))
                  small_state "the" "a" H)).
Defined.

End StopWordsMore.

Module VectorSpaceMore.
Import VectorSpace VectorSpaceProps.

Section Library.

Variable scipy_cosine : Vec → Vec → option fnum.

(** When every similarity of the loop returns a number, the slice of
    the first [k] entries holds [k] words, or all of them when fewer
    lexemes pass the tests, and each entry in the slice scores at least
    as high as each entry left out. *)
Theorem top_words_score_highest
    (score : Lexeme → Q) (vocab : list Lexeme) (new_vector : Vec) (k : nat) :
  (∀ word, word ∈ vocab → passes word = true →
           cosine_similarity scipy_cosine new_vector (vector word)
           = Ok (Num (score word))) →
  ∃ ranked, computed_similarities1 scipy_cosine vocab new_vector = Ok ranked ∧
    length (top_words k ranked) = k `min` length (List.filter passes vocab) ∧
    ∀ a b, a ∈ take k ranked → b ∈ drop k ranked → fle b.2 a.2.
Proof.
  intros Hscore.
  destruct (ranking_spec scipy_cosine score vocab new_vector Hscore)
    as (ranked & Hrun & Hperm & Hsorted & _).
  exists ranked. split_and!; [done | |].
  - unfold top_words. rewrite length_fmap, length_take.
    rewrite (Permutation_length Hperm). unfold scored.
    by rewrite length_fmap.
  - intros a b Ha Hb. rewrite <- (take_drop k ranked) in Hsorted.
    by apply (StronglySorted_app_1_elem_of _ _ _ _ _ Hsorted).
Qed.

End Library.

Lemma top_words_score_highest_witness :
  (∀ word, word ∈ [lex_overlord; lex_king] → passes word = true →
           cosine_similarity zero_distance [1; 0]%Q (vector word)
           = Ok (Num ((λ _, 1%Q) word))) ∧
  ∃ ranked,
    computed_similarities1 zero_distance [lex_overlord; lex_king] [1; 0]%Q
    = Ok ranked ∧
    length (top_words 1 ranked)
    = 1 `min` length (List.filter passes [lex_overlord; lex_king]).
Proof.
  assert (H : ∀ word, word ∈ [lex_overlord; lex_king] →
            passes word = true →
            cosine_similarity zero_distance [1; 0]%Q (vector word)
            = Ok (Num ((λ _, 1%Q) word))).
  { intros word Hword _. rewrite !elem_of_cons in Hword.
    destruct Hword as [->|[->|Hword]]; [reflexivity | reflexivity |].
    by apply elem_of_nil in Hword. }
  split; [exact H|].
  destruct (top_words_score_highest zero_distance (λ _, 1%Q)
              [lex_overlord; lex_king] [1; 0]%Q 1 H)
    as (ranked & Hrun & Hlen & _).
  exists ranked. split; [exact Hrun | exact Hlen].
Defined.

End VectorSpaceMore.
